(** * UtteranceEncoderNM.forward: dialogue history encoding

    A shallow embedding of
    [nemo/collections/nlp/nm/non_trainables/dialogue_state_tracking/utterance_encoder_nm.py]
    and the properties of its [forward] method.

    Layout:
    - [PyStr]: the Python [str] methods the method calls
      ([strip], [lower], [join], [split]);
    - [Torch]: the two tensor constructions;
    - [Heap]: the store of list objects, with in-place [append], and the
      monad of a method body that reads and writes it and may raise;
    - [forward] itself, over an arbitrary vocabulary lookup;
    - the lemmas on strings and on the store, the tokens of a context turn
      by turn, then the properties of [forward], each run once on the
      example store;
    - what the tokens keep and lose of a history (words, counts, bounds),
      and how calls compose, on one history object and on separate ones.

    What the model takes for granted:
    - the characters of every text are code points below 256;
    - every entry of a history is a pair of a tag and a text;
    - the vocabulary lookup is a function of the token list it is given:
      it has no access to the history and answers the same list the same
      way;
    - moving a tensor to the device of the module does not fail. *)

From Stdlib Require Import Bool Arith ZArith Lia List Ascii String.
Import ListNotations.

Set Implicit Arguments.

(* ------------------------------------------------------------------ *)
(** ** Python strings *)

(** A Python [str] is modelled by [string]: the sequence of its code
    points, each below 256 (an [ascii] is read as the code point of that
    number).  On that range [str.lower] maps code point to code point and
    the white space of [str.strip] and [str.split] is the set below. *)
Module PyStr.

Definition between (lo hi n : nat) : bool := (lo <=? n) && (n <=? hi).

Local Open Scope string_scope.

(** [str.isspace] on one character: TAB LF VT FF CR, the separators
    FS GS RS US, SPACE, NEL (0x85) and NBSP (0xA0). *)
Definition isspace (c : ascii) : bool :=
  let n := nat_of_ascii c in
  between 9 13 n || between 28 32 n || (n =? 133)%nat || (n =? 160)%nat.

(** The characters [str.lower] changes: A-Z and the capital letters
    0xC0-0xDE without the multiplication sign 0xD7. *)
Definition isupper (c : ascii) : bool :=
  let n := nat_of_ascii c in
  between 65 90 n || (between 192 222 n && negb (n =? 215)%nat).

Definition lower_char (c : ascii) : ascii :=
  if isupper c then ascii_of_nat (nat_of_ascii c + 32) else c.

(** [s.lower()] *)
Fixpoint lower (s : string) : string :=
  match s with
  | EmptyString => EmptyString
  | String c s' => String (lower_char c) (lower s')
  end.

(** [s.lstrip()]: drop the leading white space. *)
Fixpoint lstrip (s : string) : string :=
  match s with
  | EmptyString => EmptyString
  | String c s' => if isspace c then lstrip s' else s
  end.

(** [s.rstrip()]: drop the trailing white space. *)
Fixpoint rstrip (s : string) : string :=
  match s with
  | EmptyString => EmptyString
  | String c s' =>
      match rstrip s' with
      | EmptyString => if isspace c then EmptyString else String c EmptyString
      | r => String c r
      end
  end.

(** [s.strip()]: both ends. *)
Definition strip (s : string) : string := rstrip (lstrip s).

(** [sep.join(xs)] *)
Fixpoint join (sep : string) (xs : list string) : string :=
  match xs with
  | [] => EmptyString
  | x :: rest =>
      match rest with
      | [] => x
      | _ :: _ => x ++ sep ++ join sep rest
      end
  end.

(** A finished word is emitted unless it is empty. *)
Definition emit (w : string) (ts : list string) : list string :=
  match w with
  | EmptyString => ts
  | String _ _ => w :: ts
  end.

(** The scan of [s.split()]: [w] holds the characters of the word being
    read; a white space character closes it. *)
Fixpoint split_from (w s : string) : list string :=
  match s with
  | EmptyString => emit w []
  | String c s' =>
      if isspace c then emit w (split_from EmptyString s')
      else split_from (w ++ String c EmptyString) s'
  end.

(** [s.split()]: the maximal runs of characters that are not white space. *)
Definition split (s : string) : list string := split_from EmptyString s.

(** [str.upper] on ASCII text: a-z to A-Z. *)
Definition upper_char (c : ascii) : ascii :=
  let n := nat_of_ascii c in
  if between 97 122 n then ascii_of_nat (n - 32) else c.

Fixpoint upper (s : string) : string :=
  match s with
  | EmptyString => EmptyString
  | String c s' => String (upper_char c) (upper s')
  end.

(** Printable ASCII: code points 32 to 126. *)
Definition printable_char (c : ascii) : bool := between 32 126 (nat_of_ascii c).

Fixpoint printable (s : string) : bool :=
  match s with
  | EmptyString => true
  | String c s' => printable_char c && printable s'
  end.

End PyStr.


(* ------------------------------------------------------------------ *)
(** ** Tensors *)

(** The values and the shape of the two tensors, and the one way their
    construction fails.  A 1-D integer tensor is the list of its elements,
    a 2-D one the list of its rows, and a tensor of shape [(1,)] the list
    of its one element; [.to(device)] moves a tensor and leaves values and
    shape unchanged, so it has no counterpart. *)
Module Torch.

Definition tensor1 : Type := list Z.
Definition tensor2 : Type := list (list Z).

(** The elements of an integer tensor are 64-bit signed integers. *)
Definition int64_min : Z := - 2 ^ 63.
Definition int64_max : Z := 2 ^ 63 - 1.

Definition fits_int64 (z : Z) : bool :=
  (int64_min <=? z)%Z && (z <=? int64_max)%Z.

Definition all_int64 (xs : list Z) : bool := forallb fits_int64 xs.

(** [torch.tensor(xs)] for a list of Python integers: the tensor of these
    elements when each of them fits in 64 bits, and no tensor, the call
    raising an overflow error, when one does not. *)
Definition tensor (xs : list Z) : option tensor1 :=
  if all_int64 xs then Some xs else None.

(** [torch.tensor(n)] for the length [n] of a list: a tensor without
    dimension.  A Python list has at most [sys.maxsize = 2^63 - 1]
    elements, so its length always fits. *)
Definition scalar (n : nat) : Z := Z.of_nat n.

(** [t.unsqueeze(0)]: a new leading dimension of size one. *)
Definition unsqueeze0 {A : Type} (t : A) : list A := [t].

(** [t.numel()] on a 2-D tensor. *)
Definition numel (t : tensor2) : nat := list_sum (map (@List.length Z) t).

End Torch.

(* ------------------------------------------------------------------ *)
(** ** The store and the monad of method bodies *)

Module Heap.

(** One entry of the history, the two-element list [[tag, text]];
    [item[1]] is [snd]. *)
Definition turn : Type := (string * string)%type.

(** A reference to a list object, and the store that gives each list
    object its current content.  The history is passed, mutated and
    returned by reference. *)
Definition loc : Type := nat.
Definition store : Type := loc -> list turn.

Definition upd (h : store) (l : loc) (v : list turn) : store :=
  fun l' => if Nat.eqb l' l then v else h l'.

Section WithExceptions.

(** The exceptions a callee may raise. *)
Variable E : Type.

(** A computation runs from a store and ends, with a value or with an
    exception, in a store: what was written before an exception stays
    written. *)
Definition M (A : Type) : Type := store -> (E + A) * store.

Definition ret {A : Type} (a : A) : M A := fun h => (inr a, h).

Definition bind {A B : Type} (m : M A) (k : A -> M B) : M B :=
  fun h =>
    match m h with
    | (inl e, h') => (inl e, h')
    | (inr a, h') => k a h'
    end.

(** The outcome of a call that does not touch the store. *)
Definition call {A : Type} (r : E + A) : M A := fun h => (r, h).

(** The result of a library call that raises [e] when it has none. *)
Definition or_raise {A : Type} (e : E) (o : option A) : M A :=
  fun h =>
    match o with
    | Some a => (inr a, h)
    | None => (inl e, h)
    end.

(** The content of the list object at [l], as an iteration reads it. *)
Definition items (l : loc) : M (list turn) := fun h => (inr (h l), h).

(** [l.append(x)] *)
Definition append (l : loc) (x : turn) : M unit :=
  fun h => (inr tt, upd h l (h l ++ [x])).

End WithExceptions.

End Heap.

Declare Scope py_scope.
Delimit Scope py_scope with py.
Notation "x <- m ;; k" := (Heap.bind m (fun x => k))
  (at level 61, m at next level, right associativity) : py_scope.
Notation "m ;; k" := (Heap.bind m (fun _ => k))
  (at level 61, right associativity) : py_scope.

(* ------------------------------------------------------------------ *)
(** ** UtteranceEncoderNM *)

Import PyStr Torch Heap.

(** Line 106: the context string of a history. *)
Definition context (dial_history : list turn) : string :=
  (strip (join " ; " (map (fun item => lower (strip (snd item))) dial_history))
     ++ " ;")%string.

Section UtteranceEncoderNM.

(** The Python exceptions. *)
Variable E : Type.

(** The exception [torch.tensor] raises on an integer that does not fit
    in 64 bits (a [RuntimeError], "Overflow when unpacking long"). *)
Variable overflow_error : E.

(** [self.data_desc.vocab.tokens2ids]: the vocabulary lookup of the data
    descriptor the module is built with.  It receives the token list only
    and either returns the list of ids or raises; nothing more is known of
    it here. *)
Variable tokens2ids : list string -> E + list Z.

(** [forward(self, dial_history, user_uttr, sys_uttr)], lines 106 to 119.
    The tensor of line 108 is built, or the call raises, before the two
    appends of lines 112 and 113. *)
Definition forward (dial_history : loc) (user_uttr sys_uttr : string)
  : M E (tensor2 * list Z * loc) :=
  (history <- items E dial_history ;;
   let context := context history in
   context_ids <- call (tokens2ids (split context)) ;;
   ids_tensor <- or_raise overflow_error (tensor context_ids) ;;
   let dialog_ids := unsqueeze0 ids_tensor in
   let dialog_lens := unsqueeze0 (scalar (List.length context_ids)) in
   append E dial_history ("sys"%string, sys_uttr) ;;
   append E dial_history ("user"%string, user_uttr) ;;
   ret E (dialog_ids, dialog_lens, dial_history))%py.

(** What [forward] computes from the content of the history alone. *)
Definition encode (history : list turn) : E + (tensor2 * list Z) :=
  match tokens2ids (split (context history)) with
  | inl e => inl e
  | inr context_ids =>
      match tensor context_ids with
      | None => inl overflow_error
      | Some ids_tensor =>
          inr (unsqueeze0 ids_tensor,
               unsqueeze0 (scalar (List.length context_ids)))
      end
  end.

End UtteranceEncoderNM.

(** The ids and the length of an outcome of [forward], without the
    reference it returns beside them. *)
Definition returned_encoding (E : Type) (r : E + (tensor2 * list Z * loc))
  : E + (tensor2 * list Z) :=
  match r with
  | inl e => inl e
  | inr (dialog_ids, dialog_lens, _) => inr (dialog_ids, dialog_lens)
  end.

(** Modelled from the spec: the body of [tokens2ids], which belongs to the
    data descriptor and is not part of this file.  The spec has it map
    the tokens to integer ids, one id for each token; this is that
    contract, for the lookups that keep it. *)
Definition one_id_per_token (E : Type) (tokens2ids : list string -> E + list Z)
  : Prop :=
  forall tokens ids, tokens2ids tokens = inr ids ->
                     List.length ids = List.length tokens.

(* ------------------------------------------------------------------ *)
(** ** Two vocabularies to run the encoder with *)

Definition word2idx : list (string * Z) :=
  [("UNK", 0); ("PAD", 1); ("EOS", 2); ("BOS", 3); (";", 4); ("hello", 5);
   ("i", 6); ("need", 7); ("a", 8); ("train", 9)]%string%Z.

Fixpoint lookup (w : string) (d : list (string * Z)) : option Z :=
  match d with
  | [] => None
  | (k, v) :: d' => if String.eqb k w then Some v else lookup w d'
  end.

(** A lookup that sends an unknown token to the id of UNK. *)
Definition tokens2ids_unk (tokens : list string) : string + list Z :=
  inr (map (fun w => match lookup w word2idx with
                     | Some i => i
                     | None => 0%Z
                     end) tokens).

(** A lookup that raises on the first unknown token, with the token as
    the exception. *)
Fixpoint tokens2ids_strict (tokens : list string) : string + list Z :=
  match tokens with
  | [] => inr []
  | w :: rest =>
      match lookup w word2idx with
      | None => inl w
      | Some i =>
          match tokens2ids_strict rest with
          | inl e => inl e
          | inr ids => inr (i :: ids)
          end
      end
  end.

(** A lookup whose ids are too wide for a tensor: every token gets the
    id [2^63]. *)
Definition tokens2ids_wide (tokens : list string) : string + list Z :=
  inr (map (fun _ => (2 ^ 63)%Z) tokens).

(** The overflow error of [torch.tensor], exceptions being strings
    here. *)
Definition overflow_msg : string := "Overflow when unpacking long".

(** A store with the running example at reference 0, a second history at
    reference 1 and the empty list elsewhere. *)
Definition example_store : store :=
  fun l =>
    match l with
    | 0 => [("sys", "hello"); ("user", "I need a train")]%string
    | 1 => [("user", "Good Morning")]%string
    | _ => []
    end.

(* ------------------------------------------------------------------ *)
(** ** Case variants of a history *)

(** [c'] stands where [c] stood: either [c] itself or, for an upper-case
    [c], its lower-case form. *)
Definition folds_char (c c' : ascii) : bool :=
  Ascii.eqb c c' || (isupper c && Ascii.eqb c' (lower_char c)).

(** [s'] is [s] with some of its upper-case letters lower-cased. *)
Fixpoint folds (s s' : string) : bool :=
  match s, s' with
  | EmptyString, EmptyString => true
  | String c r, String c' r' => folds_char c c' && folds r r'
  | _, _ => false
  end.

(** The same, text by text, with the tags kept. *)
Fixpoint folds_history (H H' : list turn) : bool :=
  match H, H' with
  | [], [] => true
  | (tag, text) :: R, (tag', text') :: R' =>
      String.eqb tag tag' && folds text text' && folds_history R R'
  | _, _ => false
  end.

Definition printable_history (H : list turn) : bool :=
  forallb (fun item => printable (snd item)) H.

Definition upper_history (H : list turn) : list turn :=
  map (fun item => (fst item, upper (snd item))) H.

Definition lower_history (H : list turn) : list turn :=
  map (fun item => (fst item, lower (snd item))) H.


(* ------------------------------------------------------------------ *)
(** ** Words of a history *)

(** The words of the text of one entry, lower-cased. *)
Definition turn_words (item : turn) : list string :=
  map lower (split (snd item)).

(** No character of [s] is white space. *)
Fixpoint nospace (s : string) : bool :=
  match s with
  | EmptyString => true
  | String c s' => negb (isspace c) && nospace s'
  end.

(** No text of [H] has the delimiter [";"] among its words. *)
Definition free_of_delimiter (H : list turn) : bool :=
  forallb (fun item => negb (existsb (String.eqb ";") (split (snd item)))) H.

(** The history with each text as the comprehension of line 106 leaves
    it: stripped, then lower-cased. *)
Definition normalised_history (H : list turn) : list turn :=
  map (fun item => (fst item, lower (strip (snd item)))) H.

(** A store for the runs on texts with irregular white space: a tab is
    character 9. *)
Definition spaced_store : store :=
  fun l =>
    match l with
    | 0 => [("sys", "Hello  THERE"); ("user", "   ")]%string
    | 1 => [("user", String "009" "hello there "); ("user", "")]%string
    | _ => []
    end.

(* ------------------------------------------------------------------ *)
(** ** Facts on characters and strings *)

Unset Implicit Arguments.

Section StringFacts.

Local Open Scope string_scope.

Local Ltac by_cases c := destruct c as [[] [] [] [] [] [] [] []]; vm_compute; reflexivity.

Lemma isspace_lower_char (c : ascii) : isspace (lower_char c) = isspace c.
Proof. by_cases c. Qed.

Lemma lower_char_idem (c : ascii) : lower_char (lower_char c) = lower_char c.
Proof. by_cases c. Qed.

Lemma lower_upper_char (c : ascii) : lower_char (upper_char c) = lower_char c.
Proof. by_cases c. Qed.

Lemma isspace_semicolon : isspace ";" = false.
Proof. reflexivity. Qed.

Lemma lower_app (a b : string) : lower (a ++ b) = lower a ++ lower b.
Proof.
  induction a as [|c a IH]; simpl; [reflexivity|].
  now rewrite IH.
Qed.

Lemma lower_idem (s : string) : lower (lower s) = lower s.
Proof.
  induction s as [|c s IH]; simpl; [reflexivity|].
  now rewrite lower_char_idem, IH.
Qed.

Lemma lower_upper (s : string) : lower (upper s) = lower s.
Proof.
  induction s as [|c s IH]; simpl; [reflexivity|].
  now rewrite lower_upper_char, IH.
Qed.

Lemma lower_lstrip (s : string) : lower (lstrip s) = lstrip (lower s).
Proof.
  induction s as [|c s IH]; simpl; [reflexivity|].
  rewrite isspace_lower_char.
  destruct (isspace c); [exact IH | reflexivity].
Qed.

Lemma lower_rstrip (s : string) : lower (rstrip s) = rstrip (lower s).
Proof.
  induction s as [|c s IH]; simpl; [reflexivity|].
  rewrite <- IH, isspace_lower_char.
  destruct (rstrip s); simpl; [destruct (isspace c)|]; reflexivity.
Qed.

Lemma lower_strip (s : string) : lower (strip s) = strip (lower s).
Proof. unfold strip. now rewrite lower_rstrip, lower_lstrip. Qed.

Lemma folds_char_lower (c c' : ascii) :
  folds_char c c' = true -> lower_char c' = lower_char c.
Proof.
  unfold folds_char. intros Hf.
  apply orb_true_iff in Hf. destruct Hf as [Hf | Hf].
  - apply Ascii.eqb_eq in Hf. now subst.
  - apply andb_true_iff in Hf. destruct Hf as [_ Hf].
    apply Ascii.eqb_eq in Hf. subst. apply lower_char_idem.
Qed.

Lemma folds_lower (s s' : string) : folds s s' = true -> lower s' = lower s.
Proof.
  revert s'. induction s as [|c s IH]; intros [|c' s']; simpl;
    try discriminate; [reflexivity|].
  intros Hf. apply andb_true_iff in Hf. destruct Hf as [Hc Hs].
  now rewrite (folds_char_lower _ _ Hc), (IH _ Hs).
Qed.

(** Lower-casing a text changes none of its upper-case-free positions. *)
Lemma folds_to_lower (s : string) : folds s (lower s) = true.
Proof.
  induction s as [|c s IH]; simpl; [reflexivity|].
  rewrite IH, andb_true_r. unfold folds_char, lower_char.
  destruct (isupper c); simpl.
  - rewrite Ascii.eqb_refl. apply orb_true_r.
  - now rewrite Ascii.eqb_refl.
Qed.

Lemma emit_app (w : string) (a b : list string) :
  (emit w a ++ b = emit w (a ++ b))%list.
Proof. now destruct w. Qed.

(** A white space character ends the word in progress: what follows is
    split on its own. *)
Lemma split_from_app_space (w a : string) (c : ascii) (b : string) :
  isspace c = true ->
  split_from w (a ++ String c b) = (split_from w a ++ split b)%list.
Proof.
  intros Hc. revert w.
  induction a as [|x a IH]; intros w; simpl.
  - rewrite Hc. now rewrite emit_app.
  - destruct (isspace x).
    + now rewrite IH, emit_app.
    + apply IH.
Qed.

Lemma split_app_delim (a : string) :
  split (a ++ " ;") = (split a ++ [";"])%list.
Proof. unfold split. now rewrite split_from_app_space. Qed.

End StringFacts.

(* ------------------------------------------------------------------ *)
(** ** The store *)

Lemma upd_same (h : store) (l : loc) (v : list turn) : upd h l v l = v.
Proof. unfold upd. now rewrite Nat.eqb_refl. Qed.

Lemma upd_other (h : store) (l l' : loc) (v : list turn) :
  l' <> l -> upd h l v l' = h l'.
Proof.
  intros Hne. unfold upd.
  destruct (Nat.eqb_spec l' l); [contradiction | reflexivity].
Qed.

(** The lookups of the examples give one id for each token. *)
Lemma tokens2ids_unk_one_id : one_id_per_token tokens2ids_unk.
Proof.
  intros tokens ids Hr. unfold tokens2ids_unk in Hr.
  injection Hr as <-. apply length_map.
Qed.

Lemma tokens2ids_strict_one_id : one_id_per_token tokens2ids_strict.
Proof.
  intros tokens. induction tokens as [|w rest IH]; intros ids Hr;
    cbn [tokens2ids_strict] in Hr.
  - now injection Hr as <-.
  - destruct (lookup w word2idx); [|discriminate].
    destruct (tokens2ids_strict rest) as [e | ids'] eqn:Hrest; [discriminate|].
    injection Hr as <-. simpl. f_equal. now apply IH.
Qed.

(* ------------------------------------------------------------------ *)
(** ** Properties of [forward] *)

Section ForwardFacts.

Variable E : Type.
Variable overflow : E.
Variable tokens2ids : list string -> E + list Z.

Local Open Scope string_scope.
Local Open Scope list_scope.

(** One run of the body: the lookup and the tensor of its ids decide the
    outcome, and the two appends happen only when both succeed. *)
Lemma forward_run (h : store) (l : loc) (u s : string) :
  forward overflow tokens2ids l u s h =
  match tokens2ids (split (context (h l))) with
  | inl e => (inl e, h)
  | inr ids =>
      if all_int64 ids
      then (inr ([ids], [Z.of_nat (List.length ids)], l),
            upd (upd h l (h l ++ [("sys", s)])) l
                ((h l ++ [("sys", s)]) ++ [("user", u)]))
      else (inl overflow, h)
  end.
Proof.
  unfold forward, bind, items, call, or_raise, tensor, append, ret. simpl.
  destruct (tokens2ids (split (context (h l)))) as [e | ids];
    [reflexivity|].
  destruct (all_int64 ids); [|reflexivity].
  now rewrite upd_same.
Qed.

Lemma forward_returns (h : store) (l : loc) (u s : string) (ids : list Z) :
  tokens2ids (split (context (h l))) = inr ids ->
  all_int64 ids = true ->
  fst (forward overflow tokens2ids l u s h)
  = inr ([ids], [Z.of_nat (List.length ids)], l)
  /\ snd (forward overflow tokens2ids l u s h) l
     = h l ++ [("sys", s); ("user", u)]
  /\ (forall l', l' <> l -> snd (forward overflow tokens2ids l u s h) l' = h l').
Proof.
  intros Hids Hfit. rewrite forward_run, Hids, Hfit. simpl. repeat split.
  - now rewrite upd_same, <- app_assoc.
  - intros l' Hne. now rewrite !upd_other.
Qed.

Lemma forward_raises (h : store) (l : loc) (u s : string) (e : E) :
  tokens2ids (split (context (h l))) = inl e ->
  forward overflow tokens2ids l u s h = (inl e, h).
Proof. intros He. now rewrite forward_run, He. Qed.

(** An id that does not fit in 64 bits makes the call raise at the tensor
    of line 108, before any append. *)
Lemma forward_overflows (h : store) (l : loc) (u s : string) (ids : list Z) :
  tokens2ids (split (context (h l))) = inr ids ->
  all_int64 ids = false ->
  forward overflow tokens2ids l u s h = (inl overflow, h).
Proof. intros Hids Hfit. now rewrite forward_run, Hids, Hfit. Qed.

(** A call that returns got its ids from the lookup, and they fit. *)
Lemma forward_returned (h : store) (l : loc) (u s : string)
      (dialog_ids : tensor2) (dialog_lens : list Z) (r : loc) :
  fst (forward overflow tokens2ids l u s h) = inr (dialog_ids, dialog_lens, r) ->
  exists ids, tokens2ids (split (context (h l))) = inr ids
              /\ dialog_ids = [ids]
              /\ dialog_lens = [Z.of_nat (List.length ids)]
              /\ r = l
              /\ all_int64 ids = true.
Proof.
  rewrite forward_run.
  destruct (tokens2ids (split (context (h l)))) as [e | ids]; simpl;
    [discriminate|].
  destruct (all_int64 ids) eqn:Hfit; simpl; [|discriminate].
  intros Hr. injection Hr as <- <- <-. now exists ids.
Qed.

(** A call that raises has appended nothing, and raises either what the
    lookup raised or the overflow error of the tensor. *)
Lemma forward_raised (h : store) (l : loc) (u s : string) (e : E) :
  fst (forward overflow tokens2ids l u s h) = inl e ->
  snd (forward overflow tokens2ids l u s h) = h
  /\ (tokens2ids (split (context (h l))) = inl e
      \/ (e = overflow
          /\ exists ids, tokens2ids (split (context (h l))) = inr ids
                         /\ all_int64 ids = false)).
Proof.
  rewrite forward_run.
  destruct (tokens2ids (split (context (h l)))) as [e' | ids]; simpl.
  - intros He. injection He as ->. now split; [|left].
  - destruct (all_int64 ids) eqn:Hfit; simpl; [discriminate|].
    intros He. injection He as <-. split; [reflexivity|].
    right. split; [reflexivity|]. now exists ids.
Qed.

(** The ids and the length depend on the content of the history only. *)
Lemma forward_encoding (h : store) (l : loc) (u s : string) :
  returned_encoding (fst (forward overflow tokens2ids l u s h))
  = encode overflow tokens2ids (h l).
Proof.
  rewrite forward_run. unfold encode, tensor.
  destruct (tokens2ids (split (context (h l)))) as [e | ids];
    [reflexivity|].
  destruct (all_int64 ids); reflexivity.
Qed.

(** The turns a call appends are read by the next call on the same
    history object. *)
Lemma forward_next_call (h : store) (l : loc) (u s u' s' : string)
      (ids : list Z) :
  tokens2ids (split (context (h l))) = inr ids ->
  all_int64 ids = true ->
  returned_encoding
    (fst (forward overflow tokens2ids l u' s'
            (snd (forward overflow tokens2ids l u s h))))
  = encode overflow tokens2ids (h l ++ [("sys", s); ("user", u)]).
Proof.
  intros Hids Hfit. rewrite forward_encoding.
  destruct (forward_returns h l u s ids Hids Hfit) as [_ [Hsame _]].
  now rewrite Hsame.
Qed.

Lemma numel_row (ids : list Z) : numel [ids] = List.length ids.
Proof. unfold numel. simpl. lia. Qed.

(** The last token of every context is the delimiter. *)
Lemma split_context (H : list turn) :
  exists body, split (context H) = body ++ [";"].
Proof.
  unfold context. rewrite split_app_delim. eauto.
Qed.

End ForwardFacts.

(* ------------------------------------------------------------------ *)
(** ** The tokens of a context, turn by turn *)

Section Tokens.

Local Open Scope string_scope.
Local Open Scope list_scope.

Lemma split_lstrip (s : string) : split (lstrip s) = split s.
Proof.
  unfold split. induction s as [|c s IH]; [reflexivity|].
  cbn [lstrip split_from]. destruct (isspace c) eqn:Hc.
  - exact IH.
  - cbn [split_from]. now rewrite Hc.
Qed.

Lemma split_from_rstrip (s w : string) :
  split_from w (rstrip s) = split_from w s.
Proof.
  revert w. induction s as [|c s IH]; intros w; [reflexivity|].
  cbn [rstrip]. destruct (rstrip s) as [|a r] eqn:Hr.
  - cbn [split_from]. destruct (isspace c) eqn:Hc.
    + rewrite <- (IH ""). reflexivity.
    + cbn [split_from]. rewrite Hc, <- IH. reflexivity.
  - cbn [split_from]. destruct (isspace c); now rewrite <- IH.
Qed.

Lemma split_strip (s : string) : split (strip s) = split s.
Proof.
  unfold strip, split at 1. rewrite split_from_rstrip. apply split_lstrip.
Qed.

Lemma emit_lower (w : string) (ts : list string) :
  emit (lower w) (map lower ts) = map lower (emit w ts).
Proof. now destruct w. Qed.

Lemma split_from_lower (s w : string) :
  split_from (lower w) (lower s) = map lower (split_from w s).
Proof.
  revert w. induction s as [|c s IH]; intros w; cbn [lower split_from].
  - apply (emit_lower w []).
  - rewrite isspace_lower_char. destruct (isspace c).
    + rewrite <- emit_lower. f_equal. exact (IH "").
    + rewrite <- IH, lower_app. reflexivity.
Qed.

(** Lower-casing does not move the word boundaries. *)
Lemma split_lower (s : string) : split (lower s) = map lower (split s).
Proof. apply (split_from_lower s ""). Qed.

Lemma split_join_cons (x y : string) (rest : list string) :
  split (join " ; " (x :: y :: rest))
  = split x ++ ";" :: split (join " ; " (y :: rest)).
Proof.
  change (join " ; " (x :: y :: rest))
    with (x ++ String " " ("; " ++ join " ; " (y :: rest)))%string.
  unfold split at 1. rewrite split_from_app_space by reflexivity.
  reflexivity.
Qed.

Lemma split_join_delim (xs : list string) :
  xs <> [] ->
  split (join " ; " xs) ++ [";"] = flat_map (fun x => split x ++ [";"]) xs.
Proof.
  induction xs as [|x [|y rest] IH]; intros Hne.
  - contradiction.
  - simpl. now rewrite app_nil_r.
  - rewrite split_join_cons.
    change (flat_map (fun x => split x ++ [";"]) (x :: y :: rest))
      with ((split x ++ [";"])
              ++ flat_map (fun x => split x ++ [";"]) (y :: rest)).
    rewrite <- IH by discriminate.
    now rewrite <- !app_assoc.
Qed.

(** The tokens of the context of a history with at least one turn: the
    lower-cased words of each text in turn, each text closed by [";"]. *)
Lemma tokens_by_turn (H : list turn) :
  H <> [] ->
  split (context H)
  = flat_map (fun item => map lower (split (snd item)) ++ [";"]) H.
Proof.
  intros Hne. unfold context.
  rewrite split_app_delim, split_strip, split_join_delim.
  - clear Hne. induction H as [|item H IH]; [reflexivity|].
    cbn [map flat_map]. now rewrite IH, split_lower, split_strip.
  - now destruct H.
Qed.

Lemma tokens_of_empty : split (context []) = [";"].
Proof. reflexivity. Qed.

End Tokens.

(* ------------------------------------------------------------------ *)
(** ** Case variants *)

Section CaseFacts.

Local Open Scope string_scope.
Local Open Scope list_scope.

(** The context sees the texts of a history through [lower] only. *)
Lemma context_lower_eq (H H' : list turn) :
  map (fun item => lower (snd item)) H' = map (fun item => lower (snd item)) H ->
  context H' = context H.
Proof.
  intros Heq. unfold context. do 3 f_equal.
  assert (Hstrip : forall K : list turn,
             map (fun item => lower (strip (snd item))) K
             = map strip (map (fun item => lower (snd item)) K)).
  { intros K. rewrite map_map. apply map_ext. intros item. apply lower_strip. }
  now rewrite !Hstrip, Heq.
Qed.

Lemma folds_history_lower (H H' : list turn) :
  folds_history H H' = true ->
  map (fun item => lower (snd item)) H' = map (fun item => lower (snd item)) H.
Proof.
  revert H'. induction H as [|[tag text] R IH]; intros [|[tag' text'] R'];
    cbn [folds_history]; try discriminate; [reflexivity|].
  intros Hf. apply andb_true_iff in Hf. destruct Hf as [Hf HR].
  apply andb_true_iff in Hf. destruct Hf as [_ Ht].
  cbn [map snd]. now rewrite (folds_lower _ _ Ht), (IH _ HR).
Qed.

Lemma upper_history_lower (H : list turn) :
  map (fun item => lower (snd item)) (upper_history H)
  = map (fun item => lower (snd item)) H.
Proof.
  unfold upper_history. rewrite map_map. apply map_ext.
  intros item. apply lower_upper.
Qed.

Lemma lower_history_lower (H : list turn) :
  map (fun item => lower (snd item)) (lower_history H)
  = map (fun item => lower (snd item)) H.
Proof.
  unfold lower_history. rewrite map_map. apply map_ext.
  intros item. apply lower_idem.
Qed.

End CaseFacts.

(* ------------------------------------------------------------------ *)
(** ** Runs on small inputs *)

Example split_words :
  split "  a bc   d "%string = ["a"; "bc"; "d"]%string.
Proof. reflexivity. Qed.

Example strip_both : strip "  Hi there  "%string = "Hi there"%string.
Proof. reflexivity. Qed.

Example join_three :
  join " ; " ["a"; ""; "b"]%string = "a ;  ; b"%string.
Proof. reflexivity. Qed.

(** A text of white space only leaves an empty field, and the outer
    [strip] then removes the space before the first delimiter. *)
Example context_blank_text :
  context [("sys", "   "); ("user", " Taxi  to   Town ")]%string
  = "; taxi  to   town ;"%string.
Proof. reflexivity. Qed.

Example tokens_blank_text :
  split (context [("sys", "   "); ("user", " Taxi  to   Town ")]%string)
  = [";"; "taxi"; "to"; "town"; ";"]%string.
Proof. reflexivity. Qed.

Example forward_on_example :
  fst (forward overflow_msg tokens2ids_strict 0 "to cambridge" "sure, when?"
               example_store)
  = inr ([[5; 4; 6; 7; 8; 9; 4]%Z], [7%Z], 0).
Proof. reflexivity. Qed.

(** An id of [2^63] stops the call at the tensor: it raises and the
    history keeps its two entries. *)
Example forward_on_wide_ids :
  fst (forward overflow_msg tokens2ids_wide 0 "to cambridge" "sure, when?"
               example_store)
  = inl overflow_msg
  /\ snd (forward overflow_msg tokens2ids_wide 0 "to cambridge" "sure, when?"
                  example_store) 0
     = [("sys", "hello"); ("user", "I need a train")]%string.
Proof. split; reflexivity. Qed.

(** The second call reads the turns the first one appended; the strict
    lookup does not know ["sure,"]. *)
Example forward_twice :
  fst (forward overflow_msg tokens2ids_strict 0 "by noon" "ok"
         (snd (forward overflow_msg tokens2ids_strict 0 "to cambridge"
                       "sure, when?" example_store)))
  = inl "sure,"%string.
Proof. reflexivity. Qed.

(* ------------------------------------------------------------------ *)
(** ** The specification of [forward] *)

Local Open Scope string_scope.
Local Open Scope list_scope.

(** C1. For every history [H], the ids [forward] returns are the result of
    the vocabulary lookup on the white-space-split tokens of
    [join(" ; ", [text.strip().lower() ...]).strip() + " ;"]: whenever the
    lookup returns ids on these tokens, each fitting in 64 bits, the call
    returns them as the one row of [dialog_ids], and a call that returns
    got its row from that lookup.  With a lookup that gives one id for
    each token, the ids are as many as the tokens.  When an id does not
    fit, the tensor cannot be built and the call raises the overflow
    error. *)
Theorem forward_ids_lookup_of_context_tokens :
  forall (E : Type) (overflow : E) (tokens2ids : list string -> E + list Z)
         (h : store) (l : loc) (u s : string) (H : list turn),
    h l = H ->
    let tokens :=
      split (strip (join " ; " (map (fun item => lower (strip (snd item))) H))
               ++ " ;")%string in
    (forall ids, tokens2ids tokens = inr ids ->
       all_int64 ids = true ->
       exists dialog_lens,
         fst (forward overflow tokens2ids l u s h) = inr ([ids], dialog_lens, l))
    /\ (forall dialog_ids dialog_lens r,
          fst (forward overflow tokens2ids l u s h)
          = inr (dialog_ids, dialog_lens, r) ->
          exists ids,
            tokens2ids tokens = inr ids
            /\ dialog_ids = [ids]
            /\ (one_id_per_token tokens2ids ->
                numel dialog_ids = List.length tokens))
    /\ (forall ids, tokens2ids tokens = inr ids ->
          all_int64 ids = false ->
          fst (forward overflow tokens2ids l u s h) = inl overflow).
Proof.
  intros E overflow tokens2ids h l u s H HH tokens.
  assert (Htok : tokens = split (context (h l))) by (now rewrite HH).
  split; [|split].
  - intros ids Hids Hfit. rewrite Htok in Hids.
    destruct (forward_returns E overflow tokens2ids h l u s ids Hids Hfit)
      as [Hfst _].
    eauto.
  - intros dialog_ids dialog_lens r Hret.
    destruct (forward_returned E overflow tokens2ids h l u s _ _ _ Hret)
      as [ids [Hids [Hrow _]]].
    exists ids. rewrite Htok. repeat split; try assumption.
    intros Hone. rewrite Hrow, numel_row. now apply Hone.
  - intros ids Hids Hfit. rewrite Htok in Hids.
    now rewrite (forward_overflows E overflow tokens2ids h l u s ids Hids Hfit).
Qed.

(** C2. For every history [H] and utterances [u] (user) and [s] (system),
    a call that returns leaves the history object with content [H]
    followed by [("sys", s)] and then [("user", u)]; the entries of [H]
    are where they were, the reference returned is the one passed in, and
    no other list object has changed.  The call does return when the
    lookup returns ids that fit in 64 bits. *)
Theorem forward_appends_sys_then_user :
  forall (E : Type) (overflow : E) (tokens2ids : list string -> E + list Z)
         (h : store) (l : loc) (u s : string) (H : list turn),
    h l = H ->
    let h' := snd (forward overflow tokens2ids l u s h) in
    (forall dialog_ids dialog_lens r,
        fst (forward overflow tokens2ids l u s h)
        = inr (dialog_ids, dialog_lens, r) ->
        r = l
        /\ h' l = H ++ [("sys", s); ("user", u)]
        /\ (forall i, i < List.length H -> nth_error (h' l) i = nth_error H i)
        /\ (forall l', l' <> l -> h' l' = h l'))
    /\ (forall ids, tokens2ids (split (context H)) = inr ids ->
          all_int64 ids = true ->
          exists dialog_ids dialog_lens,
            fst (forward overflow tokens2ids l u s h)
            = inr (dialog_ids, dialog_lens, l)).
Proof.
  intros E overflow tokens2ids h l u s H HH h'. subst H. split.
  - intros dialog_ids dialog_lens r Hret.
    destruct (forward_returned E overflow tokens2ids h l u s _ _ _ Hret)
      as [ids [Hids [_ [_ [Hr Hfit]]]]].
    destruct (forward_returns E overflow tokens2ids h l u s ids Hids Hfit)
      as [_ [Hsame Hother]].
    repeat split.
    + exact Hr.
    + exact Hsame.
    + intros i Hi. unfold h'. rewrite Hsame. now apply nth_error_app1.
    + exact Hother.
  - intros ids Hids Hfit.
    destruct (forward_returns E overflow tokens2ids h l u s ids Hids Hfit)
      as [Hfst _].
    eauto.
Qed.

(** C3. The ids and the length [forward] returns are computed from the
    content [H] the history has when the call starts, and from nothing
    else: two calls on histories with the same content [H] return the same
    ids and the same length (or raise the same exception) whatever user
    and system utterances they are given, namely the encoding of [H]. *)
Theorem forward_ids_independent_of_new_turns :
  forall (E : Type) (overflow : E) (tokens2ids : list string -> E + list Z)
         (h1 h2 : store) (l1 l2 : loc) (u1 s1 u2 s2 : string) (H : list turn),
    h1 l1 = H ->
    h2 l2 = H ->
    returned_encoding (fst (forward overflow tokens2ids l1 u1 s1 h1))
    = returned_encoding (fst (forward overflow tokens2ids l2 u2 s2 h2))
    /\ returned_encoding (fst (forward overflow tokens2ids l1 u1 s1 h1))
       = encode overflow tokens2ids H.
Proof.
  intros E overflow tokens2ids h1 h2 l1 l2 u1 s1 u2 s2 H H1 H2.
  rewrite !forward_encoding, H1, H2. now split.
Qed.

(** C4. For every history and every pair of utterances, the length
    [forward] returns is the number of elements of the ids it returns;
    and it does return both whenever the lookup returns ids that fit in
    64 bits. *)
Theorem forward_length_is_number_of_ids :
  forall (E : Type) (overflow : E) (tokens2ids : list string -> E + list Z)
         (h : store) (l : loc) (u s : string),
    (forall dialog_ids dialog_lens r,
        fst (forward overflow tokens2ids l u s h)
        = inr (dialog_ids, dialog_lens, r) ->
        dialog_lens = [Z.of_nat (numel dialog_ids)])
    /\ (forall ids, tokens2ids (split (context (h l))) = inr ids ->
          all_int64 ids = true ->
          exists dialog_ids dialog_lens,
            fst (forward overflow tokens2ids l u s h)
            = inr (dialog_ids, dialog_lens, l)
            /\ dialog_lens = [Z.of_nat (numel dialog_ids)]).
Proof.
  intros E overflow tokens2ids h l u s. split.
  - intros dialog_ids dialog_lens r Hret.
    destruct (forward_returned E overflow tokens2ids h l u s _ _ _ Hret)
      as [ids [_ [Hrow [Hlen _]]]].
    now rewrite Hlen, Hrow, numel_row.
  - intros ids Hids Hfit.
    destruct (forward_returns E overflow tokens2ids h l u s ids Hids Hfit)
      as [Hfst _].
    exists [ids], [Z.of_nat (List.length ids)].
    now rewrite numel_row.
Qed.

(** C5. On the empty history the context is the delimiter alone and the
    token list handed to the lookup is the single token [";"].  The empty
    history raises nothing of its own: the call ends as the lookup on
    [[";"]] and the tensor of its ids end, so an exception of the call is
    one the lookup raised on that list, or the overflow error for an id
    that does not fit in 64 bits.  With a lookup that gives one id for
    each token, an id that fits, the ids returned are one id and the
    length returned is 1. *)
Theorem forward_empty_history :
  forall (E : Type) (overflow : E) (tokens2ids : list string -> E + list Z)
         (h : store) (l : loc) (u s : string),
    h l = [] ->
    context (h l) = " ;"
    /\ split (context (h l)) = [";"]
    /\ fst (forward overflow tokens2ids l u s h)
       = match tokens2ids [";"] with
         | inl e => inl e
         | inr ids =>
             if all_int64 ids
             then inr ([ids], [Z.of_nat (List.length ids)], l)
             else inl overflow
         end
    /\ (forall e, fst (forward overflow tokens2ids l u s h) = inl e ->
                  tokens2ids [";"] = inl e
                  \/ (e = overflow
                      /\ exists ids, tokens2ids [";"] = inr ids
                                     /\ all_int64 ids = false))
    /\ (forall ids, tokens2ids [";"] = inr ids ->
        one_id_per_token tokens2ids ->
        all_int64 ids = true ->
        List.length ids = 1
        /\ fst (forward overflow tokens2ids l u s h) = inr ([ids], [1%Z], l)).
Proof.
  intros E overflow tokens2ids h l u s Hempty.
  assert (Htok : split (context (h l)) = [";"]) by (now rewrite Hempty).
  assert (Hfst : fst (forward overflow tokens2ids l u s h)
                 = match tokens2ids [";"] with
                   | inl e => inl e
                   | inr ids =>
                       if all_int64 ids
                       then inr ([ids], [Z.of_nat (List.length ids)], l)
                       else inl overflow
                   end).
  { rewrite forward_run, Htok.
    destruct (tokens2ids [";"]) as [e | ids]; [reflexivity|].
    destruct (all_int64 ids); reflexivity. }
  split; [now rewrite Hempty|]. split; [exact Htok|]. split; [exact Hfst|].
  split.
  { intros e He.
    destruct (forward_raised E overflow tokens2ids h l u s e He) as [_ Hwhy].
    now rewrite Htok in Hwhy. }
  intros ids Hids Hone Hfit.
  pose proof (Hone [";"] ids Hids) as Hlen. simpl in Hlen.
  split; [exact Hlen|].
  rewrite Hfst, Hids, Hfit, Hlen. reflexivity.
Qed.

(** C6. Case folding: for every history [H] of printable ASCII texts,
    replacing any of the upper-case letters of its texts by their
    lower-case forms (giving [H']) leaves the context unchanged, and so do
    lower-casing and upper-casing all of [H]; hence the calls on [H], on
    [H'] and on the upper-cased [H] return the same ids and length. *)
Theorem context_case_folding :
  forall (H H' : list turn),
    printable_history H = true ->
    folds_history H H' = true ->
    context H' = context H
    /\ context (lower_history H) = context H
    /\ context (upper_history H) = context H
    /\ (forall (E : Type) (overflow : E)
               (tokens2ids : list string -> E + list Z)
               (h h' hu : store) (l l' lu : loc) (u s : string),
          h l = H -> h' l' = H' -> hu lu = upper_history H ->
          returned_encoding (fst (forward overflow tokens2ids l' u s h'))
          = returned_encoding (fst (forward overflow tokens2ids l u s h))
          /\ returned_encoding (fst (forward overflow tokens2ids lu u s hu))
             = returned_encoding (fst (forward overflow tokens2ids l u s h))).
Proof.
  intros H H' _ Hfolds.
  assert (Hvar : context H' = context H)
    by (apply context_lower_eq, folds_history_lower, Hfolds).
  assert (Hup : context (upper_history H) = context H)
    by (apply context_lower_eq, upper_history_lower).
  split; [exact Hvar|].
  split; [apply context_lower_eq, lower_history_lower|].
  split; [exact Hup|].
  intros E overflow tokens2ids h h' hu l l' lu u s Hh Hh' Hhu.
  rewrite !forward_encoding, Hh, Hh', Hhu. unfold encode.
  now rewrite Hvar, Hup.
Qed.

(** C7. The running example: on the history
    [[("sys","hello"); ("user","I need a train")]] with user utterance
    ["to cambridge"] and system utterance ["sure, when?"], the context is
    ["hello ; i need a train ;"], the lookup receives
    [["hello"; ";"; "i"; "need"; "a"; "train"; ";"]], the call returns the
    ids the lookup gives on them when they fit in 64 bits, and the history
    then becomes the old one followed by [("sys","sure, when?")] and
    [("user","to cambridge")]. *)
Theorem forward_running_example :
  forall (E : Type) (overflow : E) (tokens2ids : list string -> E + list Z)
         (h : store) (l : loc),
    h l = [("sys", "hello"); ("user", "I need a train")] ->
    context (h l) = "hello ; i need a train ;"
    /\ split (context (h l)) = ["hello"; ";"; "i"; "need"; "a"; "train"; ";"]
    /\ fst (forward overflow tokens2ids l "to cambridge" "sure, when?" h)
       = match tokens2ids ["hello"; ";"; "i"; "need"; "a"; "train"; ";"] with
         | inl e => inl e
         | inr ids =>
             if all_int64 ids
             then inr ([ids], [Z.of_nat (List.length ids)], l)
             else inl overflow
         end
    /\ (forall ids,
          tokens2ids ["hello"; ";"; "i"; "need"; "a"; "train"; ";"] = inr ids ->
          all_int64 ids = true ->
          snd (forward overflow tokens2ids l "to cambridge" "sure, when?" h) l
          = [("sys", "hello"); ("user", "I need a train");
             ("sys", "sure, when?"); ("user", "to cambridge")]).
Proof.
  intros E overflow tokens2ids h l Hh.
  assert (Htok : split (context (h l))
                 = ["hello"; ";"; "i"; "need"; "a"; "train"; ";"])
    by (rewrite Hh; reflexivity).
  split; [rewrite Hh; reflexivity|].
  split; [exact Htok|].
  split.
  - rewrite forward_run, Htok.
    destruct (tokens2ids ["hello"; ";"; "i"; "need"; "a"; "train"; ";"])
      as [e | ids]; [reflexivity|].
    destruct (all_int64 ids); reflexivity.
  - intros ids Hids Hfit. rewrite <- Htok in Hids.
    destruct (forward_returns E overflow tokens2ids h l
                              "to cambridge" "sure, when?" ids Hids Hfit)
      as [_ [Hsame _]].
    rewrite Hsame, Hh. reflexivity.
Qed.

(** C8. When the vocabulary lookup raises [e] on the token list, the call
    raises that same [e]: it is handed to the caller as it is. *)
Theorem forward_propagates_lookup_error :
  forall (E : Type) (overflow : E) (tokens2ids : list string -> E + list Z)
         (h : store) (l : loc) (u s : string) (e : E),
    tokens2ids (split (context (h l))) = inl e ->
    fst (forward overflow tokens2ids l u s h) = inl e.
Proof.
  intros E overflow tokens2ids h l u s e He.
  now rewrite (forward_raises E overflow tokens2ids h l u s e He).
Qed.

(** C9. When the vocabulary lookup raises, the store is left as it was:
    the history has the content it had, neither turn has been appended. *)
Theorem forward_error_leaves_history :
  forall (E : Type) (overflow : E) (tokens2ids : list string -> E + list Z)
         (h : store) (l : loc) (u s : string) (e : E),
    tokens2ids (split (context (h l))) = inl e ->
    snd (forward overflow tokens2ids l u s h) = h
    /\ snd (forward overflow tokens2ids l u s h) l = h l.
Proof.
  intros E overflow tokens2ids h l u s e He.
  now rewrite (forward_raises E overflow tokens2ids h l u s e He).
Qed.

(** C10. For every history, empty or not, the context ends with [" ;"],
    so the token list handed to the lookup is not empty and its last token
    is [";"]; hence, with a lookup that gives one id for each token, the
    length returned is at least 1 whenever the call returns, as it does
    when the lookup returns ids that fit in 64 bits. *)
Theorem context_ends_with_delimiter :
  forall (H : list turn),
    (exists body, context H = (body ++ " ;")%string)
    /\ split (context H) <> []
    /\ last (split (context H)) "" = ";"
    /\ (forall (E : Type) (overflow : E)
               (tokens2ids : list string -> E + list Z)
               (h : store) (l : loc) (u s : string) (ids : list Z),
          h l = H ->
          one_id_per_token tokens2ids ->
          tokens2ids (split (context H)) = inr ids ->
          1 <= List.length ids
          /\ (forall dialog_ids dialog_lens r,
                fst (forward overflow tokens2ids l u s h)
                = inr (dialog_ids, dialog_lens, r) ->
                dialog_lens = [Z.of_nat (List.length ids)]
                /\ (1 <= Z.of_nat (List.length ids))%Z)
          /\ (all_int64 ids = true ->
              fst (forward overflow tokens2ids l u s h)
              = inr ([ids], [Z.of_nat (List.length ids)], l))).
Proof.
  intros H.
  destruct (split_context H) as [body Hbody].
  split; [unfold context; eauto|].
  split; [rewrite Hbody; now destruct body|].
  split; [rewrite Hbody; apply last_last|].
  intros E overflow tokens2ids h l u s ids Hh Hone Hids.
  pose proof (Hone _ _ Hids) as Hlen.
  rewrite Hbody, length_app in Hlen. simpl in Hlen.
  rewrite <- Hh in Hids.
  split; [lia|]. split.
  - intros dialog_ids dialog_lens r Hret.
    destruct (forward_returned E overflow tokens2ids h l u s _ _ _ Hret)
      as [ids' [Hids' [_ [Hlens _]]]].
    rewrite Hids in Hids'. injection Hids' as <-.
    split; [exact Hlens | lia].
  - intros Hfit.
    now destruct (forward_returns E overflow tokens2ids h l u s ids Hids Hfit).
Qed.

(* ------------------------------------------------------------------ *)
(** ** The specification at work on the example store *)

Lemma forward_ids_lookup_of_context_tokens_witness :
  example_store 0 = [("sys", "hello"); ("user", "I need a train")]
  /\ (exists dialog_lens,
         fst (forward overflow_msg tokens2ids_strict 0
                      "to cambridge" "sure, when?" example_store)
         = inr ([[5; 4; 6; 7; 8; 9; 4]%Z], dialog_lens, 0))
  /\ numel [[5; 4; 6; 7; 8; 9; 4]%Z] = 7.
Proof.
  destruct (forward_ids_lookup_of_context_tokens
              string overflow_msg tokens2ids_strict example_store 0
              "to cambridge" "sure, when?" (example_store 0) eq_refl)
    as [Hret [Hback _]].
  split; [reflexivity|]. split.
  - apply Hret; reflexivity.
  - destruct (Hback [[5; 4; 6; 7; 8; 9; 4]%Z] [7%Z] 0 eq_refl)
      as [ids [_ [_ Hone]]].
    exact (Hone tokens2ids_strict_one_id).
Defined.

Lemma forward_appends_sys_then_user_witness :
  example_store 1 = [("user", "Good Morning")]
  /\ fst (forward overflow_msg tokens2ids_unk 1
                  "a taxi please" "how can i help?" example_store)
     = inr ([[0; 0; 4]%Z], [3%Z], 1)
  /\ snd (forward overflow_msg tokens2ids_unk 1
                  "a taxi please" "how can i help?" example_store) 1
     = [("user", "Good Morning"); ("sys", "how can i help?");
        ("user", "a taxi please")].
Proof.
  split; [reflexivity|]. split; [reflexivity|].
  exact (proj1 (proj2 (proj1 (forward_appends_sys_then_user
                                string overflow_msg tokens2ids_unk
                                example_store 1
                                "a taxi please" "how can i help?"
                                [("user", "Good Morning")] eq_refl)
                             [[0; 0; 4]%Z] [3%Z] 1 eq_refl))).
Defined.

Lemma forward_ids_independent_of_new_turns_witness :
  example_store 0 = (fun _ : loc => example_store 0) 7
  /\ returned_encoding
       (fst (forward overflow_msg tokens2ids_strict 0
                     "to cambridge" "sure, when?" example_store))
     = returned_encoding
         (fst (forward overflow_msg tokens2ids_strict 7 "a taxi" "where to?"
                       (fun _ : loc => example_store 0))).
Proof.
  split; [reflexivity|].
  exact (proj1 (forward_ids_independent_of_new_turns
                  string overflow_msg tokens2ids_strict
                  example_store (fun _ : loc => example_store 0) 0 7
                  "to cambridge" "sure, when?" "a taxi" "where to?"
                  (example_store 0) eq_refl eq_refl)).
Defined.

Lemma forward_length_is_number_of_ids_witness :
  fst (forward overflow_msg tokens2ids_strict 0 "to cambridge" "sure, when?"
               example_store)
  = inr ([[5; 4; 6; 7; 8; 9; 4]%Z], [7%Z], 0)
  /\ [7%Z] = [Z.of_nat (numel [[5; 4; 6; 7; 8; 9; 4]%Z])].
Proof.
  split; [reflexivity|].
  exact (proj1 (forward_length_is_number_of_ids
                  string overflow_msg tokens2ids_strict example_store 0
                  "to cambridge" "sure, when?")
               [[5; 4; 6; 7; 8; 9; 4]%Z] [7%Z] 0 eq_refl).
Defined.

Lemma forward_empty_history_witness :
  example_store 2 = []
  /\ tokens2ids_strict [";"] = inr [4%Z]
  /\ fst (forward overflow_msg tokens2ids_strict 2 "hi" "" example_store)
     = inr ([[4%Z]], [1%Z], 2).
Proof.
  split; [reflexivity|]. split; [reflexivity|].
  destruct (forward_empty_history string overflow_msg tokens2ids_strict
                                  example_store 2 "hi" "" eq_refl)
    as [_ [_ [_ [_ Hone]]]].
  exact (proj2 (Hone [4%Z] eq_refl tokens2ids_strict_one_id eq_refl)).
Defined.

Lemma context_case_folding_witness :
  printable_history [("user", "Good Morning")] = true
  /\ folds_history [("user", "Good Morning")] [("user", "good Morning")] = true
  /\ context [("user", "good Morning")] = context [("user", "Good Morning")]
  /\ context [("user", "GOOD MORNING")] = context [("user", "Good Morning")].
Proof.
  split; [reflexivity|]. split; [reflexivity|].
  destruct (context_case_folding
              [("user", "Good Morning")] [("user", "good Morning")]
              eq_refl eq_refl)
    as [Hvar [_ [Hup _]]].
  split; [exact Hvar | exact Hup].
Defined.

Lemma forward_running_example_witness :
  example_store 0 = [("sys", "hello"); ("user", "I need a train")]
  /\ tokens2ids_strict ["hello"; ";"; "i"; "need"; "a"; "train"; ";"]
     = inr [5; 4; 6; 7; 8; 9; 4]%Z
  /\ snd (forward overflow_msg tokens2ids_strict 0
                  "to cambridge" "sure, when?" example_store) 0
     = [("sys", "hello"); ("user", "I need a train");
        ("sys", "sure, when?"); ("user", "to cambridge")].
Proof.
  split; [reflexivity|]. split; [reflexivity|].
  destruct (forward_running_example string overflow_msg tokens2ids_strict
                                    example_store 0 eq_refl)
    as [_ [_ [_ Hhist]]].
  exact (Hhist [5; 4; 6; 7; 8; 9; 4]%Z eq_refl eq_refl).
Defined.

Lemma forward_propagates_lookup_error_witness :
  tokens2ids_strict (split (context (example_store 1))) = inl "good"
  /\ fst (forward overflow_msg tokens2ids_strict 1
                  "a taxi please" "how can i help?" example_store)
     = inl "good".
Proof.
  split; [reflexivity|].
  exact (forward_propagates_lookup_error
           string overflow_msg tokens2ids_strict example_store 1
           "a taxi please" "how can i help?" "good" eq_refl).
Defined.

Lemma forward_error_leaves_history_witness :
  tokens2ids_strict (split (context (example_store 1))) = inl "good"
  /\ snd (forward overflow_msg tokens2ids_strict 1
                  "a taxi please" "how can i help?" example_store)
     = example_store.
Proof.
  split; [reflexivity|].
  exact (proj1 (forward_error_leaves_history
                  string overflow_msg tokens2ids_strict example_store 1
                  "a taxi please" "how can i help?" "good" eq_refl)).
Defined.

Lemma context_ends_with_delimiter_witness :
  example_store 0 = [("sys", "hello"); ("user", "I need a train")]
  /\ tokens2ids_strict
       (split (context [("sys", "hello"); ("user", "I need a train")]))
     = inr [5; 4; 6; 7; 8; 9; 4]%Z
  /\ fst (forward overflow_msg tokens2ids_strict 0
                  "to cambridge" "sure, when?" example_store)
     = inr ([[5; 4; 6; 7; 8; 9; 4]%Z], [7%Z], 0).
Proof.
  split; [reflexivity|]. split; [reflexivity|].
  destruct (context_ends_with_delimiter
              [("sys", "hello"); ("user", "I need a train")])
    as [_ [_ [_ Hlen]]].
  exact (proj2 (proj2 (Hlen string overflow_msg tokens2ids_strict
                            example_store 0 "to cambridge" "sure, when?"
                            [5; 4; 6; 7; 8; 9; 4]%Z
                            eq_refl tokens2ids_strict_one_id eq_refl))
               eq_refl).
Defined.

(* ------------------------------------------------------------------ *)
(** ** Words, counts and bounds *)

Section Words.

Local Open Scope string_scope.
Local Open Scope list_scope.

Lemma nospace_app (a b : string) :
  nospace (a ++ b) = nospace a && nospace b.
Proof.
  induction a as [|c a IH]; simpl; [reflexivity|].
  now rewrite IH, andb_assoc.
Qed.

(** The words [split] gives are not empty and hold no white space. *)
Lemma split_from_words (s w : string) :
  nospace w = true ->
  Forall (fun t => t <> "" /\ nospace t = true) (split_from w s).
Proof.
  revert w. induction s as [|c s IH]; intros w Hw; cbn [split_from].
  - destruct w; simpl; [constructor|].
    constructor; [split; [discriminate | exact Hw] | constructor].
  - destruct (isspace c) eqn:Hc.
    + specialize (IH "" eq_refl). destruct w; simpl; [exact IH|].
      constructor; [split; [discriminate | exact Hw] | exact IH].
    + apply IH. rewrite nospace_app, Hw. simpl. now rewrite Hc.
Qed.

Lemma length_flat_map_delim (A : Type) (f : A -> list string) (l : list A) :
  List.length (flat_map (fun x => f x ++ [";"]) l)
  = list_sum (map (fun x => List.length (f x) + 1) l).
Proof.
  induction l as [|x l IH]; [reflexivity|].
  cbn [flat_map map list_sum]. rewrite !length_app, IH. reflexivity.
Qed.

Lemma list_sum_succ_ge (A : Type) (f : A -> nat) (l : list A) :
  List.length l <= list_sum (map (fun x => f x + 1) l).
Proof.
  induction l as [|x l IH]; simpl; lia.
Qed.

(** A word takes a character and, but for the last one, a white space
    after it. *)
Lemma split_from_count (s w : string) :
  2 * List.length (split_from w s)
  <= String.length s + match w with EmptyString => 1 | String _ _ => 2 end.
Proof.
  revert w. induction s as [|c s IH]; intros w; cbn [split_from].
  - destruct w; simpl; lia.
  - destruct (isspace c).
    + specialize (IH ""). destruct w; simpl in *; lia.
    + specialize (IH (w ++ String c "")%string).
      destruct w; simpl in *; lia.
Qed.

End Words.

(** X1. The tokens handed to the lookup, turn by turn: for a history with
    at least one entry they are the lower-cased words of the first text,
    then [";"], then those of the second text, then [";"], and so on; for
    the empty history they are the one token [";"]. *)
Theorem context_tokens_turn_by_turn :
  forall (H : list turn),
    split (context H)
    = match H with
      | [] => [";"]
      | _ :: _ => flat_map (fun item => turn_words item ++ [";"]) H
      end.
Proof.
  intros [|item H]; [reflexivity|].
  apply tokens_by_turn. discriminate.
Qed.

(** X2. The length a call returns counts words and turns: for a history
    [H] with at least one entry and a lookup that returns one id for each
    token, each id fitting in 64 bits, the call returns and the length is
    the sum over the entries of the number of words of the text plus one,
    and so at least the number of entries. *)
Theorem forward_length_counts_words_and_turns :
  forall (E : Type) (overflow : E) (tokens2ids : list string -> E + list Z)
         (h : store) (l : loc) (u s : string) (H : list turn) (ids : list Z),
    h l = H ->
    H <> [] ->
    one_id_per_token tokens2ids ->
    tokens2ids (split (context H)) = inr ids ->
    all_int64 ids = true ->
    let n := list_sum (map (fun item => List.length (split (snd item)) + 1) H) in
    fst (forward overflow tokens2ids l u s h) = inr ([ids], [Z.of_nat n], l)
    /\ List.length ids = n
    /\ List.length H <= n.
Proof.
  intros E overflow tokens2ids h l u s H ids Hh Hne Hone Hids Hfit n.
  assert (Hn : List.length ids = n).
  { rewrite (Hone _ _ Hids), (tokens_by_turn H Hne).
    unfold turn_words. rewrite length_flat_map_delim. unfold n.
    f_equal. apply map_ext. intros item. now rewrite length_map. }
  rewrite <- Hh in Hids.
  destruct (forward_returns E overflow tokens2ids h l u s ids Hids Hfit)
    as [Hfst _].
  rewrite Hfst, Hn.
  repeat split. apply list_sum_succ_ge.
Qed.

Lemma forward_length_counts_words_and_turns_witness :
  spaced_store 0 = [("sys", "Hello  THERE"); ("user", "   ")]
  /\ tokens2ids_unk (split (context (spaced_store 0))) = inr [5; 0; 4; 4]%Z
  /\ fst (forward overflow_msg tokens2ids_unk 0 "a taxi" "where to?"
                  spaced_store)
     = inr ([[5; 0; 4; 4]%Z], [4%Z], 0).
Proof.
  split; [reflexivity|]. split; [reflexivity|].
  assert (Hne : spaced_store 0 <> []) by discriminate.
  exact (proj1 (forward_length_counts_words_and_turns
                  string overflow_msg tokens2ids_unk spaced_store 0
                  "a taxi" "where to?"
                  (spaced_store 0) [5; 0; 4; 4]%Z
                  eq_refl Hne tokens2ids_unk_one_id eq_refl eq_refl)).
Defined.

(** X3. What the lookup is never given: every token of every context is
    non-empty, holds no white space character and no upper-case letter
    (lower-casing it changes nothing). *)
Theorem context_tokens_clean :
  forall (H : list turn) (t : string),
    In t (split (context H)) ->
    t <> "" /\ nospace t = true /\ lower t = t.
Proof.
  intros H t Hin.
  assert (Hword : t <> "" /\ nospace t = true).
  { pose proof (split_from_words (context H) "" eq_refl) as Hall.
    rewrite Forall_forall in Hall. now apply Hall. }
  destruct Hword as [Hne Hns]. repeat split; try assumption.
  destruct H as [|item H].
  - destruct Hin as [<- | []]. reflexivity.
  - rewrite tokens_by_turn in Hin by discriminate.
    apply in_flat_map in Hin. destruct Hin as [it [_ Hin]].
    apply in_app_or in Hin. destruct Hin as [Hin | [<- | []]];
      [|reflexivity].
    unfold turn_words in Hin. apply in_map_iff in Hin.
    destruct Hin as [x [<- _]]. apply lower_idem.
Qed.

Lemma context_tokens_clean_witness :
  In "there" (split (context (spaced_store 0)))
  /\ nospace "there" = true /\ lower "there" = "there".
Proof.
  assert (Hin : In "there" (split (context (spaced_store 0))))
    by (right; left; reflexivity).
  split; [exact Hin|].
  exact (proj2 (context_tokens_clean (spaced_store 0) "there" Hin)).
Defined.

(* ------------------------------------------------------------------ *)
(** ** What a context keeps of a history, and what it loses *)

Section Keeps.

Local Open Scope string_scope.
Local Open Scope list_scope.

Lemma flat_map_turn_words (H : list turn) :
  flat_map (fun item => turn_words item ++ [";"]) H
  = List.concat (map (fun ws => ws ++ [";"]) (map turn_words H)).
Proof. now rewrite flat_map_concat_map, map_map. Qed.

Lemma split_app_delim_mid (a b : string) :
  split (a ++ " ; " ++ b) = split a ++ ";" :: split b.
Proof. exact (split_join_cons a b []). Qed.

(** Only white space splits into no word at all. *)
Lemma split_from_nil (s w : string) :
  split_from w s = [] -> w = "" /\ lstrip s = "".
Proof.
  revert w. induction s as [|c s IH]; intros w; cbn [split_from lstrip].
  - destruct w; [now split | discriminate].
  - destruct (isspace c).
    + destruct w; simpl; [|discriminate].
      intros Hs. split; [reflexivity|]. now apply (IH "").
    + intros Hs. apply IH in Hs. destruct Hs as [Hw _].
      destruct w; discriminate.
Qed.

Lemma lower_char_semicolon (c : ascii) :
  lower_char c = ";"%char -> c = ";"%char.
Proof.
  destruct c as [[] [] [] [] [] [] [] []]; vm_compute; intros Hc;
    try discriminate Hc; reflexivity.
Qed.

Lemma lower_semicolon (t : string) : lower t = ";" -> t = ";".
Proof.
  destruct t as [|c [|d t]]; simpl; try discriminate.
  intros Ht. injection Ht as Hc. now rewrite (lower_char_semicolon c Hc).
Qed.

(** Two lists cut at the first delimiter agree piece by piece. *)
Lemma app_delim_inj (A : Type) (x : A) (ws ws' r r' : list A) :
  ~ In x ws -> ~ In x ws' ->
  ws ++ x :: r = ws' ++ x :: r' -> ws = ws' /\ r = r'.
Proof.
  revert ws'. induction ws as [|a ws IH]; intros [|a' ws'] Hn Hn' Heq;
    simpl in *.
  - injection Heq as ->. now split.
  - injection Heq as <- _. exfalso. apply Hn'. now left.
  - injection Heq as -> _. exfalso. apply Hn. now left.
  - injection Heq as -> Heq.
    assert (Hr : ws = ws' /\ r = r')
      by (apply IH; [tauto | tauto | assumption]).
    destruct Hr as [-> ->]. now split.
Qed.

Lemma concat_delim_inj (L L' : list (list string)) :
  Forall (fun ws => ~ In ";" ws) L ->
  Forall (fun ws => ~ In ";" ws) L' ->
  List.concat (map (fun ws => ws ++ [";"]) L)
  = List.concat (map (fun ws => ws ++ [";"]) L') ->
  L = L'.
Proof.
  revert L'. induction L as [|ws L IH]; intros [|ws' L'] HL HL' Heq;
    cbn [map List.concat] in Heq.
  - reflexivity.
  - destruct ws'; discriminate.
  - destruct ws; discriminate.
  - rewrite <- !app_assoc in Heq. cbn [app] in Heq.
    inversion HL as [|? ? Hws HLr]; subst.
    inversion HL' as [|? ? Hws' HLr']; subst.
    destruct (app_delim_inj _ _ _ _ _ _ Hws Hws' Heq) as [-> Hrest].
    f_equal. now apply IH.
Qed.

Lemma free_of_delimiter_words (H : list turn) :
  free_of_delimiter H = true ->
  Forall (fun ws => ~ In ";" ws) (map turn_words H).
Proof.
  unfold free_of_delimiter. intros Hfree.
  rewrite forallb_forall in Hfree.
  apply Forall_forall. intros ws Hin.
  apply in_map_iff in Hin. destruct Hin as [item [<- Hitem]].
  specialize (Hfree item Hitem). apply negb_true_iff in Hfree.
  intros Hsemi. unfold turn_words in Hsemi.
  apply in_map_iff in Hsemi. destruct Hsemi as [t [Ht Hint]].
  apply lower_semicolon in Ht. subst t.
  assert (Hex : existsb (String.eqb ";") (split (snd item)) = true).
  { apply existsb_exists. exists ";". split; [exact Hint | reflexivity]. }
  congruence.
Qed.

Lemma rstrip_idem (s : string) : rstrip (rstrip s) = rstrip s.
Proof.
  induction s as [|c s IH]; [reflexivity|].
  cbn [rstrip]. destruct (rstrip s) as [|a r] eqn:Hr.
  - destruct (isspace c) eqn:Hc; [reflexivity|].
    cbn [rstrip]. now rewrite Hc.
  - cbn [rstrip] in *. now rewrite IH.
Qed.

Lemma lstrip_head (s : string) :
  lstrip s = "" \/ exists c t, lstrip s = String c t /\ isspace c = false.
Proof.
  induction s as [|c s IH]; [now left|].
  cbn [lstrip]. destruct (isspace c) eqn:Hc; [exact IH|].
  right. now exists c, s.
Qed.

Lemma rstrip_head (c : ascii) (t : string) :
  isspace c = false -> exists r, rstrip (String c t) = String c r.
Proof.
  intros Hc. cbn [rstrip]. destruct (rstrip t) as [|a r].
  - rewrite Hc. now exists "".
  - now exists (String a r).
Qed.

Lemma strip_idem (s : string) : strip (strip s) = strip s.
Proof.
  unfold strip. destruct (lstrip_head s) as [-> | [c [t [-> Hc]]]];
    [reflexivity|].
  destruct (rstrip_head c t Hc) as [r Hr].
  rewrite Hr. cbn [lstrip]. rewrite Hc, <- Hr. apply rstrip_idem.
Qed.

Lemma count_words_bound (H : list turn) :
  2 * list_sum (map (fun item => List.length (turn_words item) + 1) H)
  <= list_sum (map (fun item => String.length (snd item) + 3) H).
Proof.
  induction H as [|item H IH]; [simpl; lia|].
  cbn [map]. unfold turn_words at 1. rewrite length_map.
  change (list_sum (?a :: ?l)) with (a + list_sum l).
  pose proof (split_from_count (snd item) "") as Hc.
  unfold split. simpl in Hc. lia.
Qed.

End Keeps.

(** X4. The tokens depend on the lower-cased words of the texts only: two
    histories whose texts have, entry by entry, the same words up to case
    give the same token list, whatever the tags and whatever white space
    stands around and between the words; calls on them return the same ids
    and length, or raise the same exception. *)
Theorem tokens_depend_on_words_only :
  forall (H H' : list turn),
    map turn_words H = map turn_words H' ->
    split (context H) = split (context H')
    /\ (forall (E : Type) (overflow : E)
               (tokens2ids : list string -> E + list Z)
               (h h' : store) (l l' : loc) (u s u' s' : string),
          h l = H -> h' l' = H' ->
          returned_encoding (fst (forward overflow tokens2ids l u s h))
          = returned_encoding (fst (forward overflow tokens2ids l' u' s' h'))).
Proof.
  intros H H' Hwords.
  assert (Htok : split (context H) = split (context H')).
  { destruct H as [|item H]; destruct H' as [|item' H'];
      try discriminate; [reflexivity|].
    rewrite !tokens_by_turn by discriminate.
    now rewrite !flat_map_turn_words, Hwords. }
  split; [exact Htok|].
  intros E overflow tokens2ids h h' l l' u s u' s' Hh Hh'.
  rewrite !forward_encoding, Hh, Hh'. unfold encode. now rewrite Htok.
Qed.

Lemma tokens_depend_on_words_only_witness :
  map turn_words (spaced_store 0) = map turn_words (spaced_store 1)
  /\ split (context (spaced_store 0)) = split (context (spaced_store 1)).
Proof.
  split; [reflexivity|].
  exact (proj1 (tokens_depend_on_words_only
                  (spaced_store 0) (spaced_store 1) eq_refl)).
Defined.

(** X5. A turn boundary cannot be told from the word [";"] in a text: two
    consecutive entries with texts [a] and [b] give the tokens of the one
    entry with text [a ++ " ; " ++ b] in their place. *)
Theorem turn_boundary_reads_as_delimiter_word :
  forall (H1 H2 : list turn) (tag1 tag2 tag : string) (a b : string),
    split (context (H1 ++ (tag1, a) :: (tag2, b) :: H2))
    = split (context (H1 ++ (tag, (a ++ " ; " ++ b)%string) :: H2)).
Proof.
  intros H1 H2 tag1 tag2 tag a b.
  rewrite !tokens_by_turn by (now destruct H1).
  rewrite !flat_map_app. f_equal.
  cbn [flat_map snd].
  rewrite split_app_delim_mid, map_app. cbn [map].
  change (lower ";") with ";"%string.
  rewrite <- !app_assoc. reflexivity.
Qed.

(** X6. One entry reads as the empty history exactly when its text has no
    word: the context of [[(tag, text)]] is that of [[]], the delimiter
    alone, if and only if [text] is empty or all white space. *)
Theorem blank_turn_reads_as_empty_history :
  forall (tag text : string),
    context [(tag, text)] = context [] <-> split text = [].
Proof.
  intros tag text. split.
  - intros Hctx.
    assert (Htok : split (context [(tag, text)]) = split (context []))
      by (now rewrite Hctx).
    rewrite tokens_by_turn in Htok by discriminate.
    cbn [flat_map snd] in Htok. rewrite app_nil_r in Htok.
    destruct (split text) as [|w ws]; [reflexivity|].
    destruct ws; discriminate.
  - intros Hblank. apply split_from_nil in Hblank.
    destruct Hblank as [_ Hl].
    unfold context. cbn [map join snd]. unfold strip at 2. rewrite Hl.
    reflexivity.
Qed.

Lemma blank_turn_reads_as_empty_history_witness :
  split (String "009" "  ") = []
  /\ context [("user", String "009" "  ")] = context [].
Proof.
  split; [reflexivity|].
  exact (proj2 (blank_turn_reads_as_empty_history "user" (String "009" "  "))
               eq_refl).
Defined.

(** X7. What the next call encodes: after a call that returns, the tokens
    of the history are those of this call followed by the lower-cased
    words of the system utterance, [";"], those of the user utterance and
    [";"]; from the empty history the lone [";"] of this call is not kept
    in front. *)
Theorem forward_next_tokens_extend :
  forall (E : Type) (overflow : E) (tokens2ids : list string -> E + list Z)
         (h : store) (l : loc) (u s : string)
         (dialog_ids : tensor2) (dialog_lens : list Z) (r : loc),
    fst (forward overflow tokens2ids l u s h)
    = inr (dialog_ids, dialog_lens, r) ->
    split (context (snd (forward overflow tokens2ids l u s h) l))
    = match h l with
      | [] => []
      | _ :: _ => split (context (h l))
      end
      ++ map lower (split s) ++ ";" :: map lower (split u) ++ [";"].
Proof.
  intros E overflow tokens2ids h l u s dialog_ids dialog_lens r Hret.
  destruct (forward_returned E overflow tokens2ids h l u s _ _ _ Hret)
    as [ids [Hids [_ [_ [_ Hfit]]]]].
  destruct (forward_returns E overflow tokens2ids h l u s ids Hids Hfit)
    as [_ [Hsame _]].
  rewrite Hsame.
  rewrite tokens_by_turn by (now destruct (h l)).
  rewrite flat_map_app. cbn [flat_map snd].
  rewrite app_nil_r, <- app_assoc. cbn [app].
  destruct (h l) as [|item H] eqn:HH; [reflexivity|].
  now rewrite tokens_by_turn by discriminate.
Qed.

Lemma forward_next_tokens_extend_witness :
  fst (forward overflow_msg tokens2ids_strict 0 "To Cambridge" "Sure,  when?"
               example_store)
  = inr ([[5; 4; 6; 7; 8; 9; 4]%Z], [7%Z], 0)
  /\ split (context (snd (forward overflow_msg tokens2ids_strict 0
                                  "To Cambridge" "Sure,  when?"
                                  example_store) 0))
     = ["hello"; ";"; "i"; "need"; "a"; "train"; ";";
        "sure,"; "when?"; ";"; "to"; "cambridge"; ";"].
Proof.
  split; [reflexivity|].
  exact (forward_next_tokens_extend
           string overflow_msg tokens2ids_strict example_store 0
           "To Cambridge" "Sure,  when?"
           [[5; 4; 6; 7; 8; 9; 4]%Z] [7%Z] 0 eq_refl).
Defined.

(** X8. What the tokens keep: for two histories with at least one entry
    each, none of whose texts has [";"] among its words, equal token lists
    mean equal lower-cased words entry by entry (and so the same number of
    entries). *)
Theorem context_tokens_determine_words :
  forall (H H' : list turn),
    H <> [] -> H' <> [] ->
    free_of_delimiter H = true ->
    free_of_delimiter H' = true ->
    split (context H) = split (context H') ->
    map turn_words H = map turn_words H'.
Proof.
  intros H H' Hne Hne' Hfree Hfree' Htok.
  rewrite !tokens_by_turn, !flat_map_turn_words in Htok by assumption.
  apply concat_delim_inj; try assumption;
    now apply free_of_delimiter_words.
Qed.

Lemma context_tokens_determine_words_witness :
  split (context (spaced_store 0)) = split (context (spaced_store 1))
  /\ map turn_words (spaced_store 0) = [["hello"; "there"]; []]
  /\ map turn_words (spaced_store 0) = map turn_words (spaced_store 1).
Proof.
  split; [reflexivity|]. split; [reflexivity|].
  assert (Hne : spaced_store 0 <> []) by discriminate.
  assert (Hne' : spaced_store 1 <> []) by discriminate.
  exact (context_tokens_determine_words
           (spaced_store 0) (spaced_store 1) Hne Hne' eq_refl eq_refl eq_refl).
Defined.

(** X9. A bound on the encoding: twice the number of tokens of a context
    is at most the sum over the entries of the length of the text plus
    three, plus two; a lookup that returns one id for each token returns
    ids within that bound. *)
Theorem context_token_count_bound :
  forall (H : list turn),
    2 * List.length (split (context H))
    <= list_sum (map (fun item => String.length (snd item) + 3) H) + 2
    /\ (forall (E : Type) (tokens2ids : list string -> E + list Z)
               (ids : list Z),
          one_id_per_token tokens2ids ->
          tokens2ids (split (context H)) = inr ids ->
          2 * List.length ids
          <= list_sum (map (fun item => String.length (snd item) + 3) H) + 2).
Proof.
  intros H.
  assert (Hb : 2 * List.length (split (context H))
               <= list_sum (map (fun item => String.length (snd item) + 3) H)
                  + 2).
  { destruct H as [|item H]; [simpl; lia|].
    rewrite tokens_by_turn by discriminate.
    change (flat_map _ (item :: H))
      with (flat_map (fun it => turn_words it ++ [";"]) (item :: H)).
    rewrite (length_flat_map_delim turn turn_words).
    pose proof (count_words_bound (item :: H)). lia. }
  split; [exact Hb|].
  intros E tokens2ids ids Hone Hids. now rewrite (Hone _ _ Hids).
Qed.

(** X10. The clean-up of line 106 is idempotent: a history whose texts
    were already stripped and lower-cased has the context of the history
    it came from. *)
Theorem context_of_normalised_history :
  forall (H : list turn), context (normalised_history H) = context H.
Proof.
  intros H. unfold context, normalised_history.
  rewrite map_map. do 3 f_equal. apply map_ext. intros item. cbn [snd].
  now rewrite (lower_strip (lower _)), lower_idem, <- lower_strip, strip_idem.
Qed.

(** X11. Two calls in a row on one history object: when the first call
    returns, the second encodes the history with the first call's two
    entries; if the second returns, the history ends with the four new
    entries in call order, and if it raises, with the first call's two
    only.  No other list object changes. *)
Theorem forward_twice_history :
  forall (E : Type) (overflow : E) (tokens2ids : list string -> E + list Z)
         (h : store) (l : loc) (u1 s1 u2 s2 : string)
         (dialog_ids : tensor2) (dialog_lens : list Z) (r : loc),
    fst (forward overflow tokens2ids l u1 s1 h)
    = inr (dialog_ids, dialog_lens, r) ->
    let h1 := snd (forward overflow tokens2ids l u1 s1 h) in
    let r2 := forward overflow tokens2ids l u2 s2 h1 in
    returned_encoding (fst r2)
    = encode overflow tokens2ids (h l ++ [("sys", s1); ("user", u1)])
    /\ (forall ids2 lens2 r', fst r2 = inr (ids2, lens2, r') ->
          snd r2 l = h l ++ [("sys", s1); ("user", u1);
                             ("sys", s2); ("user", u2)])
    /\ (forall e, fst r2 = inl e ->
          snd r2 l = h l ++ [("sys", s1); ("user", u1)])
    /\ (forall l', l' <> l -> snd r2 l' = h l').
Proof.
  intros E overflow tokens2ids h l u1 s1 u2 s2 dialog_ids dialog_lens r Hret
         h1 r2.
  destruct (forward_returned E overflow tokens2ids h l u1 s1 _ _ _ Hret)
    as [ids1 [Hids1 [_ [_ [_ Hfit1]]]]].
  destruct (forward_returns E overflow tokens2ids h l u1 s1 ids1 Hids1 Hfit1)
    as [_ [Hsame1 Hother1]].
  fold h1 in Hsame1, Hother1.
  split; [|split; [|split]].
  - unfold r2. now rewrite forward_encoding, Hsame1.
  - intros ids2 lens2 r' Hret2.
    destruct (forward_returned E overflow tokens2ids h1 l u2 s2 _ _ _ Hret2)
      as [ids [Hids [_ [_ [_ Hfit]]]]].
    destruct (forward_returns E overflow tokens2ids h1 l u2 s2 ids Hids Hfit)
      as [_ [Hsame2 _]].
    unfold r2. rewrite Hsame2, Hsame1, <- app_assoc. reflexivity.
  - intros e He.
    destruct (forward_raised E overflow tokens2ids h1 l u2 s2 e He)
      as [Hkept _].
    unfold r2. now rewrite Hkept.
  - intros l' Hne.
    destruct (fst r2) as [e | [[ids2 lens2] r']] eqn:Hout.
    + destruct (forward_raised E overflow tokens2ids h1 l u2 s2 e Hout)
        as [Hkept _].
      unfold r2. rewrite Hkept. now apply Hother1.
    + destruct (forward_returned E overflow tokens2ids h1 l u2 s2 _ _ _ Hout)
        as [ids [Hids [_ [_ [_ Hfit]]]]].
      destruct (forward_returns E overflow tokens2ids h1 l u2 s2 ids Hids Hfit)
        as [_ [_ Hother2]].
      unfold r2. rewrite Hother2 by exact Hne. now apply Hother1.
Qed.

Lemma forward_twice_history_witness :
  fst (forward overflow_msg tokens2ids_strict 0 "to cambridge" "sure, when?"
               example_store)
  = inr ([[5; 4; 6; 7; 8; 9; 4]%Z], [7%Z], 0)
  /\ snd (forward overflow_msg tokens2ids_strict 0 "by noon" "ok"
            (snd (forward overflow_msg tokens2ids_strict 0
                          "to cambridge" "sure, when?" example_store))) 0
     = [("sys", "hello"); ("user", "I need a train");
        ("sys", "sure, when?"); ("user", "to cambridge")].
Proof.
  split; [reflexivity|].
  exact (proj1 (proj2 (proj2 (forward_twice_history
                                string overflow_msg tokens2ids_strict
                                example_store 0
                                "to cambridge" "sure, when?" "by noon" "ok"
                                [[5; 4; 6; 7; 8; 9; 4]%Z] [7%Z] 0 eq_refl)))
               "sure," eq_refl).
Defined.

(* ------------------------------------------------------------------ *)
(** ** Calls on separate history objects *)

Section Separate.

Variable E : Type.
Variable overflow : E.
Variable tokens2ids : list string -> E + list Z.

(** A call changes no list object but the one it is given, whatever its
    outcome. *)
Lemma forward_frame (h : store) (l x : loc) (u s : string) :
  x <> l -> snd (forward overflow tokens2ids l u s h) x = h x.
Proof.
  intros Hne. rewrite forward_run.
  destruct (tokens2ids (split (context (h l)))) as [e | ids]; cbn [snd];
    [reflexivity|].
  destruct (all_int64 ids); cbn [snd]; [|reflexivity].
  now rewrite !upd_other.
Qed.

(** A call reads no list object but the one it is given. *)
Lemma forward_reads_own (h1 h2 : store) (l : loc) (u s : string) :
  h1 l = h2 l ->
  fst (forward overflow tokens2ids l u s h1)
  = fst (forward overflow tokens2ids l u s h2)
  /\ snd (forward overflow tokens2ids l u s h1) l
     = snd (forward overflow tokens2ids l u s h2) l.
Proof.
  intros Heq. rewrite !forward_run, Heq.
  destruct (tokens2ids (split (context (h2 l)))) as [e | ids];
    cbn [fst snd]; [now split|].
  destruct (all_int64 ids); cbn [fst snd]; [|now split].
  split; [reflexivity|]. now rewrite !upd_same.
Qed.

End Separate.

(** X12. Calls on two distinct history objects do not interfere: done in
    either order they have the same outcomes, returned values or
    exceptions, and leave every list object with the same content. *)
Theorem forward_calls_on_distinct_histories_commute :
  forall (E : Type) (overflow : E) (tokens2ids : list string -> E + list Z)
         (h : store) (l l' : loc) (u s u' s' : string),
    l <> l' ->
    let a := forward overflow tokens2ids l u s h in
    let b := forward overflow tokens2ids l' u' s' (snd a) in
    let b' := forward overflow tokens2ids l' u' s' h in
    let a' := forward overflow tokens2ids l u s (snd b') in
    fst a = fst a' /\ fst b = fst b' /\ (forall x, snd b x = snd a' x).
Proof.
  intros E overflow tokens2ids h l l' u s u' s' Hne a b b' a'.
  assert (Hne' : l' <> l) by (intros Heq; apply Hne; now symmetry).
  assert (Hal' : snd a l' = h l')
    by (apply forward_frame; exact Hne').
  assert (Hb'l : snd b' l = h l)
    by (apply forward_frame; exact Hne).
  destruct (forward_reads_own E overflow tokens2ids (snd b') h l u s Hb'l)
    as [Hfa Hsa].
  destruct (forward_reads_own E overflow tokens2ids (snd a) h l' u' s' Hal')
    as [Hfb Hsb].
  fold a' a in Hfa, Hsa. fold b b' in Hfb, Hsb.
  split; [now symmetry|]. split; [exact Hfb|].
  intros x.
  destruct (Nat.eq_dec x l) as [-> | Hxl].
  - unfold b. rewrite forward_frame by exact Hne. now symmetry.
  - destruct (Nat.eq_dec x l') as [-> | Hxl'].
    + unfold a'. rewrite forward_frame by exact Hne'. exact Hsb.
    + unfold b, a'. rewrite !forward_frame by assumption.
      unfold a, b'. now rewrite !forward_frame by assumption.
Qed.

Lemma forward_calls_on_distinct_histories_commute_witness :
  0 <> 1
  /\ snd (forward overflow_msg tokens2ids_unk 1 "a taxi" "where to?"
            (snd (forward overflow_msg tokens2ids_unk 0
                          "to cambridge" "sure, when?" example_store))) 1
     = snd (forward overflow_msg tokens2ids_unk 0 "to cambridge" "sure, when?"
              (snd (forward overflow_msg tokens2ids_unk 1
                            "a taxi" "where to?" example_store))) 1.
Proof.
  assert (Hne : 0 <> 1) by discriminate.
  split; [exact Hne|].
  exact (proj2 (proj2 (forward_calls_on_distinct_histories_commute
                         string overflow_msg tokens2ids_unk example_store 0 1
                         "to cambridge" "sure, when?" "a taxi" "where to?"
                         Hne)) 1).
Defined.

(** X13. All or nothing: a call that raises, whatever it raises, leaves
    the whole store as it was; what it raises is the exception of the
    lookup or, when the lookup returned an id that does not fit in 64
    bits, the overflow error of the tensor at line 108.  An id outside
    64 bits does make the call raise. *)
Theorem forward_raising_call_leaves_store :
  forall (E : Type) (overflow : E) (tokens2ids : list string -> E + list Z)
         (h : store) (l : loc) (u s : string),
    (forall e, fst (forward overflow tokens2ids l u s h) = inl e ->
       snd (forward overflow tokens2ids l u s h) = h
       /\ (tokens2ids (split (context (h l))) = inl e
           \/ (e = overflow
               /\ exists ids, tokens2ids (split (context (h l))) = inr ids
                              /\ all_int64 ids = false)))
    /\ (forall ids, tokens2ids (split (context (h l))) = inr ids ->
          all_int64 ids = false ->
          forward overflow tokens2ids l u s h = (inl overflow, h)).
Proof.
  intros E overflow tokens2ids h l u s. split.
  - intros e He. now apply forward_raised.
  - intros ids Hids Hfit. now apply (forward_overflows E overflow tokens2ids h l u s ids).
Qed.

Lemma forward_raising_call_leaves_store_witness :
  fst (forward overflow_msg tokens2ids_wide 0 "to cambridge" "sure, when?"
               example_store)
  = inl overflow_msg
  /\ snd (forward overflow_msg tokens2ids_wide 0 "to cambridge" "sure, when?"
                  example_store)
     = example_store.
Proof.
  split; [reflexivity|].
  exact (proj1 (proj1 (forward_raising_call_leaves_store
                         string overflow_msg tokens2ids_wide example_store 0
                         "to cambridge" "sure, when?")
                      overflow_msg eq_refl)).
Defined.
